(** * logrus-stackdriver-hook: a shallow embedding of hook.go

    The package exposes two logrus hooks.  [Log] turns a logrus entry into a
    Stackdriver logging entry, [ErrorReport] turns it into an error report
    carrying a sanitised stack trace.  The only algorithm is [chopstack], which
    removes the logrus frames from the text produced by [runtime.Stack]. *)

From Stdlib Require Import ZArith Strings.Byte Numbers.DecimalString.
From stdpp Require Import gmap strings list fin_maps.
From Equations Require Import Equations.
From Equations.Prop Require Import Logic.

Local Open Scope Z_scope.

(** ** Byte slices *)

Module Bytes.

#[global] Instance byte_eq_dec : EqDecision byte := Byte.byte_eq_dec.

(** The separator used by [chopstack], the byte ['\n']. *)
Definition newline : byte := x0a.

(** [bytes.Split(buf, []byte{'\n'})]: the subslices of [buf] between
    newlines.  The result always has one element more than [buf] has
    newlines; an empty [buf] yields one empty slice. *)
Fixpoint Split (buf : list byte) : list (list byte) :=
  match buf with
  | [] => [[]]
  | b :: rest =>
      if decide (b = newline) then [] :: Split rest
      else match Split rest with
           | [] => [[b]]
           | l :: ls => (b :: l) :: ls
           end
  end.

(** [bytes.HasPrefix(s, prefix)]:
    [len(s) >= len(prefix) && bytes.Equal(s[0:len(prefix)], prefix)]. *)
Definition HasPrefix (s prefix : list byte) : bool :=
  (length prefix <=? length s)%nat && bool_decide (take (length prefix) s = prefix).

(** [bytes.Join(s, sep)]: the elements of [s] with [sep] between them. *)
Fixpoint Join (s : list (list byte)) (sep : list byte) : list byte :=
  match s with
  | [] => []
  | [a] => a
  | a :: rest => a ++ sep ++ Join rest sep
  end.

End Bytes.

Import Bytes.

(** ** The stack sanitiser *)

(** The package path that marks a frame as logrus plumbing. *)
Definition logrusPrefix : list byte :=
  String.list_byte_of_string "github.com/sirupsen/logrus.".

(** The loop of [chopstack]:
<<
    for {
        line := lines[i]
        if !bytes.HasPrefix(line, []byte("github.com/sirupsen/logrus.")) { break }
        i += 2
    }
>>
    [lines[i]] panics when [i] is out of range; this is the [None] result.
    Otherwise the result is the value of [i] at the [break]. *)
Equations? scan (lines : list (list byte)) (i : nat) : option nat
  by wf (length lines - i)%nat lt :=
  scan lines i with inspect (lines !! i) => {
    | exist _ None _ => None;
    | exist _ (Some line) Hi with HasPrefix line logrusPrefix => {
        | true => scan lines (i + 2)%nat;
        | false => Some i } }.
Proof. apply lookup_lt_Some in Hi. lia. Qed.

(** [chopstack]; [None] stands for the run-time panic of an index out of range. *)
Definition chopstack (buf : list byte) : option (list byte) :=
  let lines := Split buf in
  match scan lines 3 with
  | None => None
  | Some i =>
      match lines !! 0%nat with
      | None => None
      | Some header => Some (Join ([header] ++ drop i lines) [newline])
      end
  end.

(** ** Values of the imported packages *)

(** A Go slice is nil or a (possibly empty) sequence of elements.  The
    constructors of the hooks test [levels == nil], which an empty slice
    does not satisfy. *)
Inductive slice (A : Type) : Type :=
| Nil
| Slice (elems : list A).
Arguments Nil {A}.
Arguments Slice {A} elems.

Definition elems {A} (s : slice A) : list A :=
  match s with Nil => [] | Slice l => l end.

Definition isNil {A} (s : slice A) : bool :=
  match s with Nil => true | Slice _ => false end.

(** A Go [error]; [nil] is [None]. *)
Inductive error : Type := errorString (text : string).

Module errors.
Definition New (text : string) : error := errorString text.
Definition Error (err : error) : string := match err with errorString t => t end.
End errors.

(** A value of type [interface{}], by dynamic type.  [VOther] stands for any
    other dynamic type and carries the text that the verb [%v] prints for it. *)
Inductive value : Type :=
| VString (s : string)
| VInt (n : Z)
| VBool (b : bool)
| VNil
| VOther (text : string).

Module fmt.
(** [fmt.Sprintf("%v", v)]. *)
Definition Sprintf_v (v : value) : string :=
  match v with
  | VString s => s
  | VInt n => NilZero.string_of_int (Z.to_int n)
  | VBool true => "true"
  | VBool false => "false"
  | VNil => "<nil>"
  | VOther text => text
  end.
End fmt.

Module logrus.

(** [type Level uint32] with its constants, in the order of [iota]. *)
Definition Level : Type := N.
Definition PanicLevel : Level := 0%N.
Definition FatalLevel : Level := 1%N.
Definition ErrorLevel : Level := 2%N.
Definition WarnLevel : Level := 3%N.
Definition InfoLevel : Level := 4%N.
Definition DebugLevel : Level := 5%N.
Definition TraceLevel : Level := 6%N.

(** The fields of [logrus.Entry] that the hooks read. *)
Record Entry : Type := {
  Data : gmap string value;
  Time : Z;
  EntryLevel : Level;
  Message : string;
}.

(** logrus files a hook under every level of its [Levels()] and, for an
    entry, fires the hooks filed under the entry's level. *)
Definition fires (levels : slice Level) (e : Entry) : bool :=
  bool_decide (EntryLevel e ∈ elems levels).

End logrus.

Module logging.

(** [type Severity int] with its constants. *)
Inductive Severity : Type :=
| Default | Debug | Info | Notice | Warning | Error | Critical | Alert | Emergency.

Record Entry : Type := {
  Timestamp : Z;
  Severity_ : Severity;
  Payload : string;
  Labels : gmap string string;
}.

(** A logger handle.  [transmit] is the answer of the logging service to an
    entry: [None] when it is accepted, an error otherwise. *)
Record Logger : Type := { transmit : Entry -> option error }.

End logging.

Module errorreporting.

Record Entry : Type := {
  Error : error;
  Stack : list byte;
  User : string;
}.

(** A client handle; [transmit] as for [logging.Logger]. *)
Record Client : Type := { transmit : Entry -> option error }.

End errorreporting.

(** ** Effects *)

(** What a hook can observe and change outside itself. *)
Record World : Type := {
  callStack : list byte;                 (* the text [runtime.Stack] formats for the caller *)
  stackCaptures : nat;                   (* calls of [runtime.Stack] so far *)
  logged : list logging.Entry;           (* entries handed to [Logger.Log], oldest first *)
  reported : list errorreporting.Entry;  (* entries handed to [Client.Report], oldest first *)
  onError : list error;                  (* errors the clients passed to their [OnError] *)
}.

(** The result of running a piece of Go code: it returns or it panics. *)
Inductive outcome (A : Type) : Type :=
| Ret (a : A) (w : World)
| Panic.
Arguments Ret {A} a w.
Arguments Panic {A}.

Definition M (A : Type) : Type := World -> outcome A.

#[global] Instance M_ret : MRet M := fun A a w => Ret a w.

#[global] Instance M_bind : MBind M :=
  fun A B k m w => match m w with Ret a w' => k a w' | Panic => Panic end.

Definition panic {A} : M A := fun _ => Panic.

Definition lift {A} (o : option A) : M A :=
  match o with Some a => mret a | None => panic end.

Module runtime.
(** [n := runtime.Stack(buf, false)] followed by [buf[:n]]: the trace of the
    calling goroutine, cut to the size of the buffer. *)
Definition Stack (size : nat) : M (list byte) :=
  fun w =>
    Ret (take size (callStack w))
        {| callStack := callStack w;
           stackCaptures := S (stackCaptures w);
           logged := logged w;
           reported := reported w;
           onError := onError w |}.
End runtime.

Definition failures (answer : option error) : list error :=
  match answer with Some err => [err] | None => [] end.

(** [Logger.Log(e)]: hands [e] to the client.  The method has no result; a
    failure of the service reaches the client's [OnError] only. *)
Definition Logger_Log (l : logging.Logger) (e : logging.Entry) : M unit :=
  fun w =>
    Ret tt
        {| callStack := callStack w;
           stackCaptures := stackCaptures w;
           logged := logged w ++ [e];
           reported := reported w;
           onError := onError w ++ failures (logging.transmit l e) |}.

(** [Client.Report(e)]: as [Logger.Log], for the error reporting client. *)
Definition Client_Report (c : errorreporting.Client) (e : errorreporting.Entry) : M unit :=
  fun w =>
    Ret tt
        {| callStack := callStack w;
           stackCaptures := stackCaptures w;
           logged := logged w;
           reported := reported w ++ [e];
           onError := onError w ++ failures (errorreporting.transmit c e) |}.

(** ** The hooks *)

Definition DefaultErrorLevels : slice logrus.Level :=
  Slice [logrus.PanicLevel; logrus.FatalLevel; logrus.ErrorLevel].

Definition DefaultLogLevels : slice logrus.Level :=
  Slice [logrus.WarnLevel; logrus.InfoLevel].

Definition levelToSeverity (l : logrus.Level) : logging.Severity :=
  if decide (l = logrus.InfoLevel) then logging.Info
  else if decide (l = logrus.WarnLevel) then logging.Warning
  else if decide (l = logrus.ErrorLevel) then logging.Error
  else if decide (l = logrus.PanicLevel \/ l = logrus.FatalLevel) then logging.Critical
  else logging.Default.

(** The type switch shared by both hooks: a string is taken as it is, any
    other value is formatted with [%v]. *)
Definition text (v : value) : string :=
  match v with
  | VString s => s
  | _ => fmt.Sprintf_v v
  end.

Module ErrorReport.

Record t : Type := {
  client : errorreporting.Client;
  levels : slice logrus.Level;
}.

Definition Fire (h : t) (e : logrus.Entry) : M (option error) :=
  buf ← runtime.Stack (16 * 1024);
  callerStack ← lift (chopstack buf);
  let user :=
    match logrus.Data e !! "user" with
    | Some val => text val
    | None => ""
    end in
  Client_Report (client h)
    {| errorreporting.Error := errors.New (logrus.Message e);
       errorreporting.Stack := callerStack;
       errorreporting.User := user |};;
  mret None.

Definition Levels (h : t) : slice logrus.Level := levels h.

End ErrorReport.

Definition NewErrorReport (client : errorreporting.Client)
    (levels : slice logrus.Level) : ErrorReport.t :=
  let levels := if isNil levels then DefaultErrorLevels else levels in
  {| ErrorReport.client := client; ErrorReport.levels := levels |}.

Module Log.

Record t : Type := {
  logger : logging.Logger;
  levels : slice logrus.Level;
}.

Definition toEntry (h : t) (e : logrus.Entry) : logging.Entry :=
  let labels :=
    map_fold (fun k v (labels : gmap string string) => <[k := text v]> labels)
             ∅ (logrus.Data e) in
  {| logging.Timestamp := logrus.Time e;
     logging.Severity_ := levelToSeverity (logrus.EntryLevel e);
     logging.Payload := logrus.Message e;
     logging.Labels := labels |}.

Definition Fire (h : t) (e : logrus.Entry) : M (option error) :=
  Logger_Log (logger h) (toEntry h e);;
  mret None.

Definition Levels (h : t) : slice logrus.Level := levels h.

End Log.

Definition NewLog (logger : logging.Logger) (levels : slice logrus.Level) : Log.t :=
  let levels := if isNil levels then DefaultLogLevels else levels in
  {| Log.logger := logger; Log.levels := levels |}.

(** ** The hooks inside logrus *)

(** A value of the interface [logrus.Hook], which both hook types implement
    with their [Levels] and [Fire]. *)
Module Hook.

Inductive t : Type :=
| OfLog (h : Log.t)
| OfErrorReport (h : ErrorReport.t).

Definition Levels (h : t) : slice logrus.Level :=
  match h with
  | OfLog h => Log.Levels h
  | OfErrorReport h => ErrorReport.Levels h
  end.

Definition Fire (h : t) (e : logrus.Entry) : M (option error) :=
  match h with
  | OfLog h => Log.Fire h e
  | OfErrorReport h => ErrorReport.Fire h e
  end.

End Hook.

(** [type LevelHooks map[Level][]Hook] of logrus, the hooks of a logger. *)
Module LevelHooks.

Abbreviation t := (gmap N (list Hook.t)).

(** [hooks[level]]: the empty slice when nothing is filed under [level]. *)
Definition filed (hooks : t) (level : logrus.Level) : list Hook.t :=
  default [] (hooks !! level).

(** [Add]:
<<
    for _, level := range hook.Levels() {
        hooks[level] = append(hooks[level], hook)
    }
>> *)
Definition Add (hooks : t) (hook : Hook.t) : t :=
  foldl (fun (hooks : t) level => <[level := filed hooks level ++ [hook]]> hooks)
        hooks (elems (Hook.Levels hook)).

(** The loop of [Fire] over the hooks filed under a level: each is fired in
    turn, and the first error ends the loop. *)
Fixpoint fireEach (filed : list Hook.t) (e : logrus.Entry) : M (option error) :=
  match filed with
  | [] => mret None
  | h :: rest =>
      err ← Hook.Fire h e;
      match err with
      | Some err => mret (Some err)
      | None => fireEach rest e
      end
  end.

Definition Fire (hooks : t) (level : logrus.Level) (e : logrus.Entry)
    : M (option error) :=
  fireEach (filed hooks level) e.

End LevelHooks.

(** The hooks of the logger after [reportErr] of [example/main.go] has run
<<
    logrus.AddHook(hook.NewLog(logger))
    logrus.AddHook(hook.NewErrorReport(errclient))
>> *)
Definition exampleHooks (logger : logging.Logger) (errclient : errorreporting.Client)
    : LevelHooks.t :=
  LevelHooks.Add
    (LevelHooks.Add ∅ (Hook.OfLog (NewLog logger Nil)))
    (Hook.OfErrorReport (NewErrorReport errclient Nil)).

(** The numbers behind the constants of [logging.Severity]. *)
Definition severityValue (s : logging.Severity) : Z :=
  match s with
  | logging.Default => 0
  | logging.Debug => 100
  | logging.Info => 200
  | logging.Notice => 300
  | logging.Warning => 400
  | logging.Error => 500
  | logging.Critical => 600
  | logging.Alert => 700
  | logging.Emergency => 800
  end.

(** ** Vocabulary of the properties *)

(** A call-site line of the logging framework. *)
Definition internal (line : list byte) : bool := HasPrefix line logrusPrefix.

(** The lines of a sequence of frames, each a call-site line and a
    source-location line. *)
Definition frames (pairs : list (list byte * list byte)) : list (list byte) :=
  flat_map (fun p => [p.1; p.2]) pairs.

(** Looking at every second line from index [i] on, the first [k] are
    internal call sites and the next one exists and is not. *)
Definition stopsAt (lines : list (list byte)) (i k : nat) : Prop :=
  (∀ j, (j < k)%nat →
        ∃ line, lines !! (i + 2 * j)%nat = Some line ∧ internal line = true) ∧
  (∃ line, lines !! (i + 2 * k)%nat = Some line ∧ internal line = false).

(** The hooks of a logger to which [added] were added in turn; how often each
    of them is due under [level], once for each time its [Levels] lists
    [level]; and the hooks of each kind among some hooks. *)
Definition addAll (added : list Hook.t) : LevelHooks.t :=
  foldl LevelHooks.Add ∅ added.

Definition due (level : logrus.Level) (added : list Hook.t) : list Hook.t :=
  flat_map
    (fun h => replicate (length (filter (fun l => l = level) (elems (Hook.Levels h)))) h)
    added.

Definition logHooks (hooks : list Hook.t) : list Log.t :=
  omap (fun h => match h with Hook.OfLog h => Some h | _ => None end) hooks.

Definition errorHooks (hooks : list Hook.t) : list ErrorReport.t :=
  omap (fun h => match h with Hook.OfErrorReport h => Some h | _ => None end) hooks.

(** The header of a trace. *)
Definition firstLine (buf : list byte) : option (list byte) := head (Split buf).

(** The reading of [Fire] under which the answer of the service is the
    result of [Fire]: an error exactly when the service refuses the entry, and
    then that very error. *)
Definition Fire_surfaces_sink_errors : Prop :=
  (∀ (h : Log.t) (e : logrus.Entry) (w w' : World) (r : option error),
     Log.Fire h e w = Ret r w' →
     r = logging.transmit (Log.logger h) (Log.toEntry h e)) ∧
  (∀ (h : ErrorReport.t) (e : logrus.Entry) (w w' : World) (r : option error),
     ErrorReport.Fire h e w = Ret r w' →
     ∃ report, last (reported w') = Some report ∧
               r = errorreporting.transmit (ErrorReport.client h) report).

(** ** Sample traces *)

Module Sample.

Definition line (s : string) : list byte := String.list_byte_of_string s.

Definition header : list byte := line "goroutine 1 [running]:".
Definition fire : list byte :=
  line "github.com/hayeah/logrus-stackdriver-hook.(*ErrorReport).Fire(0xc0000bcae0)".
Definition fireAt : list byte := line "hook.go:41 +0x6c".
Definition hooksFire : list byte :=
  line "github.com/sirupsen/logrus.LevelHooks.Fire(0xc0000a21b0)".
Definition hooksFireAt : list byte := line "hooks.go:28 +0x91".
Definition entryLog : list byte :=
  line "github.com/sirupsen/logrus.(*Entry).Log(0xc0001a89a0)".
Definition entryLogAt : list byte := line "entry.go:269 +0xc8".
Definition dologs : list byte := line "main.dologs(0x0, 0x0)".
Definition dologsAt : list byte := line "main.go:33 +0x2d3".
Definition main : list byte := line "main.main()".
Definition mainAt : list byte := line "main.go:39 +0x22".

(** A capture as in the comment of [chopstack], with two logrus frames. *)
Definition trace : list byte :=
  Join [header; fire; fireAt; hooksFire; hooksFireAt; entryLog; entryLogAt;
        dologs; dologsAt; main; mainAt] [newline].

(** A capture that ends after the hook's own frame. *)
Definition cutAfterFire : list byte := Join [header; fire; fireAt] [newline].



(** Clients whose service refuses every entry, and clients whose service
    accepts every entry. *)
Definition quota : error := errors.New "quota exceeded".
Definition failingLogger : logging.Logger := {| logging.transmit := fun _ => Some quota |}.
Definition failingClient : errorreporting.Client :=
  {| errorreporting.transmit := fun _ => Some quota |}.
Definition logger : logging.Logger := {| logging.transmit := fun _ => None |}.
Definition client : errorreporting.Client := {| errorreporting.transmit := fun _ => None |}.

(** The entries logged by [example/main.go]. *)
Definition userErr : logrus.Entry :=
  {| logrus.Data := {[ "user" := VString "howard" ]};
     logrus.Time := 0;
     logrus.EntryLevel := logrus.ErrorLevel;
     logrus.Message := "send user err: do bar: do foo" |}.

Definition warning : logrus.Entry :=
  {| logrus.Data := ∅;
     logrus.Time := 0;
     logrus.EntryLevel := logrus.WarnLevel;
     logrus.Message := "a warning will be sent" |}.

Definition debugging : logrus.Entry :=
  {| logrus.Data := ∅;
     logrus.Time := 0;
     logrus.EntryLevel := logrus.DebugLevel;
     logrus.Message := "this is a debug line, should not be sent to logging service" |}.

(** An entry with the message and user of [userErr] and nothing else in common. *)
Definition userErrAgain : logrus.Entry :=
  {| logrus.Data := {[ "user" := VString "howard"; "attempt" := VInt 2 ]};
     logrus.Time := 7;
     logrus.EntryLevel := logrus.PanicLevel;
     logrus.Message := "send user err: do bar: do foo" |}.

(** A world in which the hook runs below the frames of [trace]. *)
Definition world : World :=
  {| callStack := trace; stackCaptures := 0; logged := []; reported := [];
     onError := [] |}.

End Sample.

(** * Properties *)

(** ** Lines and newlines *)

Section Lines.

Implicit Types (buf line : list byte) (lines : list (list byte)).

Lemma Split_nonempty buf : Split buf ≠ [].
Proof.
  destruct buf as [|b rest]; simpl; [done|].
  case_decide; [done|]. by destruct (Split rest).
Qed.

Lemma Split_lookup_0 buf : is_Some (Split buf !! 0%nat).
Proof.
  pose proof (Split_nonempty buf). destruct (Split buf); [done|]. by eexists.
Qed.

(** No line of a split buffer holds a newline. *)
Lemma Split_no_newline buf : Forall (fun line => newline ∉ line) (Split buf).
Proof.
  induction buf as [|b rest IH]; simpl.
  - repeat constructor. by intros ?%elem_of_nil.
  - case_decide as Hb.
    + constructor; [by intros ?%elem_of_nil | done].
    + pose proof (Split_nonempty rest).
      destruct (Split rest) as [|l ls]; [done|].
      inversion_clear IH as [|? ? Hl Hls].
      constructor; [|done].
      intros [Heq|?]%elem_of_cons; [by apply Hb | by apply Hl].
Qed.

Lemma Split_line line : newline ∉ line → Split line = [line].
Proof.
  induction line as [|b rest IH]; intros Hnl; simpl; [done|].
  case_decide as Hb.
  - subst b. exfalso. apply Hnl. by left.
  - rewrite IH; [done|]. intros ?. apply Hnl. by right.
Qed.

Lemma Split_app_newline line buf :
  newline ∉ line → Split (line ++ newline :: buf) = line :: Split buf.
Proof.
  induction line as [|b rest IH]; intros Hnl; simpl.
  - done.
  - case_decide as Hb.
    + subst b. exfalso. apply Hnl. by left.
    + rewrite IH; [done|]. intros ?. apply Hnl. by right.
Qed.

(** Joining lines with newlines and splitting again gives the lines back. *)
Lemma Split_Join lines :
  lines ≠ [] → Forall (fun line => newline ∉ line) lines →
  Split (Join lines [newline]) = lines.
Proof.
  induction lines as [|l ls IH]; intros Hne Hall; [done|].
  inversion_clear Hall as [|? ? Hl Hls].
  destruct ls as [|l' ls'].
  - simpl. by apply Split_line.
  - change (Join (l :: l' :: ls') [newline])
      with (l ++ newline :: Join (l' :: ls') [newline]).
    rewrite Split_app_newline by done. f_equal. by apply IH.
Qed.

(** Splitting a buffer and joining its lines gives the buffer back. *)
Lemma Join_Split buf : Join (Split buf) [newline] = buf.
Proof.
  induction buf as [|b rest IH]; simpl; [done|].
  pose proof (Split_nonempty rest) as Hne.
  case_decide as Hb.
  - subst b. destruct (Split rest) as [|l ls] eqn:E; [done|].
    simpl in *. by rewrite IH.
  - destruct (Split rest) as [|l ls] eqn:E; [done|].
    destruct ls; simpl in *; by rewrite <- IH.
Qed.

End Lines.

(** ** The scan loop *)

Section Scan.

Implicit Types (buf line : list byte) (lines : list (list byte)) (i k : nat).

(** One turn of the loop. *)
Lemma scan_step lines i :
  scan lines i =
  match lines !! i with
  | None => None
  | Some line => if internal line then scan lines (i + 2) else Some i
  end.
Proof.
  assert (∀ o (Hi : lines !! i = o),
    scan_unfold_clause_1 lines i (o ↾ Hi) =
    match o with
    | None => None
    | Some line => if internal line then scan lines (i + 2) else Some i
    end) as Hclause.
  { intros [line|] Hi; simpl; [|done]. unfold internal.
    by destruct (HasPrefix line logrusPrefix). }
  rewrite scan_equation_1. apply Hclause.
Qed.

Lemma scan_out_of_range lines i : (length lines ≤ i)%nat → scan lines i = None.
Proof.
  intros Hlen. rewrite scan_step. by rewrite lookup_ge_None_2.
Qed.

Lemma scan_stopsAt lines i k : stopsAt lines i k → scan lines i = Some (i + 2 * k)%nat.
Proof.
  revert i. induction k as [|k IH]; intros i [Hskip (line & Hline & Hstop)].
  - rewrite scan_step. replace (i + 2 * 0)%nat with i in * by lia.
    by rewrite Hline, Hstop.
  - destruct (Hskip 0%nat) as (l0 & Hl0 & Hint); [lia|].
    replace (i + 2 * 0)%nat with i in Hl0 by lia.
    rewrite scan_step, Hl0, Hint.
    rewrite IH; [f_equal; lia|]. split.
    + intros j Hj. destruct (Hskip (S j)) as (l & Hl & Hi'); [lia|].
      exists l. split; [|done]. rewrite <- Hl. f_equal. lia.
    + exists line. split; [|done]. rewrite <- Hline. f_equal. lia.
Qed.

Lemma scan_Some lines i r :
  scan lines i = Some r → ∃ k, r = (i + 2 * k)%nat ∧ stopsAt lines i k.
Proof.
  remember (length lines - i)%nat as n eqn:Hn. revert i Hn.
  induction (lt_wf n) as [n _ IH]; intros i -> Hscan.
  rewrite scan_step in Hscan.
  destruct (lines !! i) as [line|] eqn:Hline; [|done].
  pose proof (lookup_lt_Some _ _ _ Hline) as Hlt.
  destruct (internal line) eqn:Hint.
  - destruct (IH (length lines - (i + 2))%nat ltac:(lia) (i + 2)%nat eq_refl Hscan)
      as (k & -> & Hskip & (l & Hl & Hstop)).
    exists (S k). split; [lia|]. split.
    + intros [|j] Hj.
      * exists line. split; [|done]. rewrite <- Hline. f_equal. lia.
      * destruct (Hskip j) as (l' & Hl' & Hi'); [lia|].
        exists l'. split; [|done]. rewrite <- Hl'. f_equal. lia.
    + exists l. split; [|done]. rewrite <- Hl. f_equal. lia.
  - injection Hscan as <-. exists 0%nat. split; [lia|]. split.
    + intros j Hj. lia.
    + exists line. split; [|done]. rewrite <- Hline. f_equal. lia.
Qed.

(** [chopstack] returns exactly on the traces whose scan stops in range. *)
Lemma chopstack_stopsAt buf k :
  stopsAt (Split buf) 3 k →
  ∃ header,
    Split buf !! 0%nat = Some header ∧
    chopstack buf = Some (Join (header :: drop (3 + 2 * k) (Split buf)) [newline]).
Proof.
  intros Hstop. destruct (Split_lookup_0 buf) as [header Hh].
  exists header. split; [done|].
  unfold chopstack. by rewrite (scan_stopsAt _ _ _ Hstop), Hh.
Qed.

Lemma chopstack_Some buf out :
  chopstack buf = Some out → ∃ k, stopsAt (Split buf) 3 k.
Proof.
  unfold chopstack. destruct (scan (Split buf) 3) as [r|] eqn:Hscan; [|done].
  intros _. apply scan_Some in Hscan as (k & _ & Hk). by exists k.
Qed.

Lemma chopstack_out_of_range buf :
  (length (Split buf) ≤ 3)%nat → chopstack buf = None.
Proof.
  intros Hlen. unfold chopstack. by rewrite scan_out_of_range.
Qed.

End Scan.

(** ** The stack sanitiser *)

Section Chopstack.

Implicit Types (buf line : list byte) (lines : list (list byte)).
Implicit Types (pairs : list (list byte * list byte)).

Lemma length_frames pairs : length (frames pairs) = (2 * length pairs)%nat.
Proof. induction pairs as [|p ps IH]; simpl in *; lia. Qed.

Lemma lookup_frames pairs j p :
  pairs !! j = Some p → frames pairs !! (2 * j)%nat = Some p.1.
Proof.
  revert j. induction pairs as [|q qs IH]; intros [|j] Hj; simplify_eq/=; [done|].
  replace (j + S (j + 0))%nat with (S (2 * j)) by lia. simpl. by apply IH.
Qed.

Lemma stopsAt_frames lines pairs l L :
  Forall (fun p => internal p.1 = true) pairs →
  internal l = false →
  stopsAt (lines ++ frames pairs ++ l :: L) (length lines) (length pairs).
Proof.
  intros Hpairs Hl. split.
  - intros j Hj. destruct (lookup_lt_is_Some_2 pairs j Hj) as [p Hp].
    exists p.1. split; [|by eapply (Forall_lookup_1 _ _ _ _ Hpairs)].
    rewrite lookup_app_r by lia.
    replace (length lines + 2 * j - length lines)%nat with (2 * j)%nat by lia.
    rewrite lookup_app_l by (rewrite length_frames; lia).
    by apply lookup_frames.
  - exists l. split; [|done].
    rewrite lookup_app_r by lia.
    rewrite lookup_app_r by (rewrite length_frames; lia).
    rewrite length_frames.
    by replace (length lines + 2 * length pairs - length lines
                - 2 * length pairs)%nat with 0%nat by lia.
Qed.

End Chopstack.


(** C2.  On a trace made of a header, the two lines of the hook's own frame,
    [k] frames whose call-site line has the logrus prefix, and then lines
    [l :: L] with [l] lacking the prefix, [chopstack] returns the header
    followed by [l :: L], joined with newlines. *)
Theorem chopstack_skips_internal_frames
    (header own ownAt l : list byte) (L : list (list byte))
    (pairs : list (list byte * list byte)) :
  Forall (fun line => newline ∉ line)
         (header :: own :: ownAt :: frames pairs ++ l :: L) →
  Forall (fun p => internal p.1 = true) pairs →
  internal l = false →
  chopstack (Join (header :: own :: ownAt :: frames pairs ++ l :: L) [newline])
  = Some (Join (header :: l :: L) [newline]).
Proof.
  intros Hlines Hpairs Hl.
  pose proof (stopsAt_frames [header; own; ownAt] pairs l L Hpairs Hl) as Hstop.
  simpl in Hstop.
  destruct (chopstack_stopsAt
              (Join (header :: own :: ownAt :: frames pairs ++ l :: L) [newline])
              (length pairs)) as (h & Hh & ->).
  { by rewrite Split_Join. }
  rewrite Split_Join in * by done.
  injection Hh as <-.
  change (drop (3 + 2 * length pairs) (header :: own :: ownAt :: frames pairs ++ l :: L))
    with (drop (2 * length pairs) (frames pairs ++ l :: L)).
  rewrite <- length_frames. by rewrite drop_app_length.
Qed.

Lemma chopstack_skips_internal_frames_witness :
  chopstack Sample.trace
  = Some (Join [Sample.header; Sample.dologs; Sample.dologsAt;
                Sample.main; Sample.mainAt] [newline]).
Proof.
  apply (chopstack_skips_internal_frames
           Sample.header Sample.fire Sample.fireAt Sample.dologs
           [Sample.dologsAt; Sample.main; Sample.mainAt]
           [(Sample.hooksFire, Sample.hooksFireAt);
            (Sample.entryLog, Sample.entryLogAt)]).
  - refine (bool_decide_unpack _ _). by vm_compute.
  - refine (bool_decide_unpack _ _). by vm_compute.
  - by vm_compute.
Defined.

(** C4.  When the scan of a trace stops in range, [chopstack] returns and the
    first line of its output is the first line of the trace. *)
Theorem chopstack_keeps_header (buf : list byte) (k : nat) :
  stopsAt (Split buf) 3 k →
  ∃ out, chopstack buf = Some out ∧
         is_Some (firstLine buf) ∧ firstLine out = firstLine buf.
Proof.
  intros Hstop. destruct (chopstack_stopsAt buf k Hstop) as (header & Hh & Hout).
  eexists. split; [exact Hout|]. unfold firstLine.
  pose proof (Split_no_newline buf) as Hnl.
  rewrite Split_Join; [| done |].
  - rewrite head_lookup, Hh. by split.
  - constructor.
    + by eapply (Forall_lookup_1 _ _ _ _ Hnl).
    + by apply Forall_drop.
Qed.

Lemma chopstack_keeps_header_witness :
  ∃ out, chopstack Sample.trace = Some out ∧
         is_Some (firstLine Sample.trace) ∧
         firstLine out = firstLine Sample.trace.
Proof.
  apply (chopstack_keeps_header Sample.trace 2). split.
  - intros j Hj. destruct j as [|[|j]]; [| |lia]; eexists; by vm_compute.
  - eexists. by vm_compute.
Defined.

(** ** Severities and levels *)

(** C5.  [levelToSeverity] is defined on every level: the five named levels
    map as listed and every other level, the debug level among them, maps to
    [logging.Default]. *)
Theorem levelToSeverity_total :
  levelToSeverity logrus.InfoLevel = logging.Info ∧
  levelToSeverity logrus.WarnLevel = logging.Warning ∧
  levelToSeverity logrus.ErrorLevel = logging.Error ∧
  levelToSeverity logrus.PanicLevel = logging.Critical ∧
  levelToSeverity logrus.FatalLevel = logging.Critical ∧
  levelToSeverity logrus.DebugLevel = logging.Default ∧
  (∀ l : logrus.Level,
     l ∉ [logrus.InfoLevel; logrus.WarnLevel; logrus.ErrorLevel;
          logrus.PanicLevel; logrus.FatalLevel] →
     levelToSeverity l = logging.Default).
Proof.
  repeat split; try reflexivity.
  intros l Hl. repeat apply not_elem_of_cons in Hl as [? Hl].
  unfold levelToSeverity. by rewrite !decide_False by tauto.
Qed.

Lemma levelToSeverity_total_witness :
  levelToSeverity logrus.TraceLevel = logging.Default.
Proof.
  apply levelToSeverity_total. refine (bool_decide_unpack _ _). by vm_compute.
Defined.

(** C7.  Without levels, [NewErrorReport] configures panic, fatal and error
    and [NewLog] configures warn and info; with levels, each configures the
    levels it was given; [Levels] returns what was configured. *)
Theorem Levels_configured
    (client : errorreporting.Client) (logger : logging.Logger)
    (ls : list logrus.Level) :
  ErrorReport.Levels (NewErrorReport client Nil)
    = Slice [logrus.PanicLevel; logrus.FatalLevel; logrus.ErrorLevel] ∧
  Log.Levels (NewLog logger Nil) = Slice [logrus.WarnLevel; logrus.InfoLevel] ∧
  ErrorReport.Levels (NewErrorReport client (Slice ls)) = Slice ls ∧
  Log.Levels (NewLog logger (Slice ls)) = Slice ls.
Proof. by repeat split. Qed.

(** C10.  An empty slice of levels that is not nil is kept as it is: the
    defaults are not put in its place, [Levels] returns the empty slice and
    the hook is fired for no entry. *)
Theorem Levels_empty_not_defaulted
    (client : errorreporting.Client) (logger : logging.Logger) (e : logrus.Entry) :
  ErrorReport.Levels (NewErrorReport client (Slice [])) = Slice [] ∧
  Log.Levels (NewLog logger (Slice [])) = Slice [] ∧
  logrus.fires (ErrorReport.Levels (NewErrorReport client (Slice []))) e = false ∧
  logrus.fires (Log.Levels (NewLog logger (Slice []))) e = false.
Proof.
  repeat split; try reflexivity.
  all: apply bool_decide_eq_false; simpl; by intros ?%elem_of_nil.
Qed.

(** ** Fields *)

Section Fields.

Lemma labels_fmap (data : gmap string value) :
  map_fold (fun k v (labels : gmap string string) => <[k := text v]> labels) ∅ data
  = text <$> data.
Proof.
  apply (map_fold_weak_ind (fun labels data => labels = text <$> data)).
  - by rewrite fmap_empty.
  - intros k v m labels _ ->. by rewrite fmap_insert.
Qed.

Lemma text_Sprintf_v (v : value) : text v = fmt.Sprintf_v v.
Proof. by destruct v. Qed.

End Fields.

(** C6.  Every field gives one label under its key, a string: a string value
    as it is, any other value as [%v] prints it, the integer 42 as "42"; no
    field is refused. *)
Theorem toEntry_labels (h : Log.t) (e : logrus.Entry) (k : string) :
  logging.Labels (Log.toEntry h e) !! k = text <$> logrus.Data e !! k ∧
  (∀ s, text (VString s) = s) ∧
  (∀ v, text v = fmt.Sprintf_v v) ∧
  text (VInt 42) = "42".
Proof.
  repeat split.
  - unfold Log.toEntry. simpl. by rewrite labels_fmap, lookup_fmap.
  - apply text_Sprintf_v.
Qed.

(** ** Firing the hooks *)

Section Fire.

Implicit Types (w : World) (e : logrus.Entry).

(** The report that [ErrorReport.Fire] builds from an entry and a
    sanitised trace. *)
Lemma ErrorReport_Fire_returns (h : ErrorReport.t) e w (cs : list byte) :
  chopstack (take (16 * 1024) (callStack w)) = Some cs →
  ErrorReport.Fire h e w =
  Ret None
    {| callStack := callStack w;
       stackCaptures := S (stackCaptures w);
       logged := logged w;
       reported := reported w ++
         [{| errorreporting.Error := errors.New (logrus.Message e);
             errorreporting.Stack := cs;
             errorreporting.User :=
               match logrus.Data e !! "user" with
               | Some val => text val
               | None => ""
               end |}];
       onError := onError w ++
         failures (errorreporting.transmit (ErrorReport.client h)
           {| errorreporting.Error := errors.New (logrus.Message e);
              errorreporting.Stack := cs;
              errorreporting.User :=
                match logrus.Data e !! "user" with
                | Some val => text val
                | None => ""
                end |}) |}.
Proof.
  intros Hcs. unfold ErrorReport.Fire, mbind, M_bind, runtime.Stack.
  cbv beta iota. rewrite Hcs. reflexivity.
Qed.

Lemma ErrorReport_Fire_panics (h : ErrorReport.t) e w :
  chopstack (take (16 * 1024) (callStack w)) = None →
  ErrorReport.Fire h e w = Panic.
Proof.
  intros Hcs. unfold ErrorReport.Fire, mbind, M_bind, runtime.Stack.
  cbv beta iota. rewrite Hcs. reflexivity.
Qed.

End Fire.

(** C8.  When the capture is one that [chopstack] returns on,
    [ErrorReport.Fire] hands over one report whose error text is the message
    of the entry and whose user is the value of the field "user": the string
    itself, the [%v] text of any other value, and the empty string when there
    is no such field. *)
Theorem ErrorReport_Fire_report
    (h : ErrorReport.t) (e : logrus.Entry) (w : World) (cs : list byte) :
  chopstack (take (16 * 1024) (callStack w)) = Some cs →
  ∃ report w',
    ErrorReport.Fire h e w = Ret None w' ∧
    reported w' = reported w ++ [report] ∧
    errors.Error (errorreporting.Error report) = logrus.Message e ∧
    errorreporting.Stack report = cs ∧
    (∀ s, logrus.Data e !! "user" = Some (VString s) → errorreporting.User report = s) ∧
    (∀ v, logrus.Data e !! "user" = Some v →
          errorreporting.User report = fmt.Sprintf_v v) ∧
    (logrus.Data e !! "user" = None → errorreporting.User report = "").
Proof.
  intros Hcs. do 2 eexists. split; [by apply ErrorReport_Fire_returns|].
  simpl. repeat split.
  - by intros s ->.
  - intros v ->. apply text_Sprintf_v.
  - by intros ->.
Qed.

Lemma ErrorReport_Fire_report_witness :
  ∃ report w',
    ErrorReport.Fire (NewErrorReport Sample.client Nil) Sample.userErr Sample.world
      = Ret None w' ∧
    reported w' = [report] ∧
    errorreporting.User report = "howard" ∧
    errors.Error (errorreporting.Error report) = "send user err: do bar: do foo".
Proof.
  destruct (ErrorReport_Fire_report
              (NewErrorReport Sample.client Nil) Sample.userErr Sample.world
              (Join [Sample.header; Sample.dologs; Sample.dologsAt;
                     Sample.main; Sample.mainAt] [newline]))
    as (report & w' & HFire & Hrep & Herr & _ & Huser & _).
  { by vm_compute. }
  exists report, w'. repeat split; [done | done | | done].
  apply Huser. by vm_compute.
Defined.

(** C9.  [Log.Fire] hands exactly one entry to the logger and captures no
    stack; [ErrorReport.Fire], on a capture that [chopstack] returns on,
    captures the stack exactly once and hands exactly one report to the
    client.  Neither keeps anything back. *)
Theorem Fire_submits_once
    (hl : Log.t) (he : ErrorReport.t) (e : logrus.Entry) (w : World)
    (cs : list byte) :
  chopstack (take (16 * 1024) (callStack w)) = Some cs →
  (∃ w', Log.Fire hl e w = Ret None w' ∧
         logged w' = logged w ++ [Log.toEntry hl e] ∧
         reported w' = reported w ∧
         stackCaptures w' = stackCaptures w) ∧
  (∃ report w', ErrorReport.Fire he e w = Ret None w' ∧
                reported w' = reported w ++ [report] ∧
                logged w' = logged w ∧
                stackCaptures w' = S (stackCaptures w)).
Proof.
  intros Hcs. split.
  - by eexists.
  - do 2 eexists. split; [by apply ErrorReport_Fire_returns|]. done.
Qed.

Lemma Fire_submits_once_witness :
  (∃ w', Log.Fire (NewLog Sample.logger Nil) Sample.warning Sample.world = Ret None w' ∧
         length (logged w') = 1%nat ∧ length (reported w') = 0%nat ∧
         stackCaptures w' = 0%nat) ∧
  (∃ w', ErrorReport.Fire (NewErrorReport Sample.client Nil) Sample.userErr Sample.world
           = Ret None w' ∧
         length (reported w') = 1%nat ∧ length (logged w') = 0%nat ∧
         stackCaptures w' = 1%nat).
Proof.
  destruct (Fire_submits_once
              (NewLog Sample.logger Nil) (NewErrorReport Sample.client Nil)
              Sample.userErr Sample.world
              (Join [Sample.header; Sample.dologs; Sample.dologsAt;
                     Sample.main; Sample.mainAt] [newline]))
    as [_ (report & w' & HFire & Hrep & Hlog & Hcap)].
  { by vm_compute. }
  split.
  - eexists. by split.
  - exists w'. split; [done|]. by rewrite Hrep, Hlog, Hcap.
Defined.

(** C3, as stated: [Fire] does not return the answer of the service.  With a
    logger whose service refuses every entry, [Log.Fire] returns nil. *)
Lemma Fire_swallows_sink_errors : ¬ Fire_surfaces_sink_errors.
Proof.
  intros [HLog _].
  specialize (HLog {| Log.logger := Sample.failingLogger; Log.levels := DefaultLogLevels |}
                   Sample.warning Sample.world _ _ eq_refl).
  discriminate HLog.
Qed.

(** C3, amended.  [Fire] never returns an error: [Log.Fire] returns nil, and
    [ErrorReport.Fire] returns nil unless [chopstack] panics.  The entry is
    handed over once, and a refusal by the service is left to the client's
    [OnError]. *)
Theorem Fire_returns_nil
    (hl : Log.t) (he : ErrorReport.t) (e : logrus.Entry) (w : World) :
  (∃ w', Log.Fire hl e w = Ret None w' ∧
         logged w' = logged w ++ [Log.toEntry hl e] ∧
         onError w' = onError w ++
           failures (logging.transmit (Log.logger hl) (Log.toEntry hl e))) ∧
  (ErrorReport.Fire he e w = Panic ∨
   ∃ report w', ErrorReport.Fire he e w = Ret None w' ∧
                reported w' = reported w ++ [report] ∧
                onError w' = onError w ++
                  failures (errorreporting.transmit (ErrorReport.client he) report)).
Proof.
  split.
  - by eexists.
  - destruct (chopstack (take (16 * 1024) (callStack w))) as [cs|] eqn:Hcs.
    + right. do 2 eexists. split; [by apply ErrorReport_Fire_returns|]. done.
    + left. by apply ErrorReport_Fire_panics.
Qed.

(** * Further properties of the package *)

(** ** Lines, prefixes and the shape of the output of [chopstack] *)

Section MoreLines.

Implicit Types (buf line sep : list byte) (lines : list (list byte)).

(** A buffer has one line more than it has newlines. *)
Lemma length_Split buf :
  length (Split buf) = S (length (filter (fun b => b = newline) buf)).
Proof.
  induction buf as [|b rest IH]; [done|].
  rewrite filter_cons. simpl. pose proof (Split_nonempty rest) as Hne.
  case_decide as Hb; simpl; [by rewrite IH|].
  destruct (Split rest) as [|l ls]; [done|]. exact IH.
Qed.

Lemma Join_cons line lines sep :
  lines ≠ [] → Join (line :: lines) sep = line ++ sep ++ Join lines sep.
Proof. by destruct lines. Qed.

Lemma Join_app lines1 lines2 sep :
  lines1 ≠ [] → lines2 ≠ [] →
  Join (lines1 ++ lines2) sep = Join lines1 sep ++ sep ++ Join lines2 sep.
Proof.
  intros H1 H2. induction lines1 as [|l ls IH]; [done|].
  destruct ls as [|l' ls'].
  - simpl app. by rewrite Join_cons.
  - change ((l :: l' :: ls') ++ lines2) with (l :: (l' :: ls') ++ lines2).
    rewrite !Join_cons by done. rewrite IH by done. by rewrite <- !app_assoc.
Qed.

Lemma HasPrefix_true line prefix :
  HasPrefix line prefix = true ↔ ∃ rest, line = prefix ++ rest.
Proof.
  unfold HasPrefix. rewrite andb_true_iff, bool_decide_eq_true, Nat.leb_le. split.
  - intros [_ Htake]. exists (drop (length prefix) line).
    by rewrite <- Htake at 1; rewrite take_drop.
  - intros [rest ->]. rewrite length_app. split; [lia|].
    by rewrite take_app_length.
Qed.

(** What [chopstack] returns, when it returns. *)
Lemma chopstack_inv buf out :
  chopstack buf = Some out →
  ∃ header k,
    Split buf !! 0%nat = Some header ∧
    stopsAt (Split buf) 3 k ∧
    (3 + 2 * k < length (Split buf))%nat ∧
    out = Join (header :: drop (3 + 2 * k) (Split buf)) [newline].
Proof.
  unfold chopstack.
  destruct (scan (Split buf) 3) as [i|] eqn:Hscan; [|done].
  destruct (Split buf !! 0%nat) as [header|] eqn:Hh; [|done].
  intros [= <-]. apply scan_Some in Hscan as (k & -> & Hstop).
  exists header, k. repeat split; try done; try apply Hstop.
  destruct Hstop as [_ (l & Hl & _)]. by apply lookup_lt_Some in Hl.
Qed.

Lemma chopstack_lines buf out :
  chopstack buf = Some out →
  ∃ header k,
    Split buf !! 0%nat = Some header ∧
    stopsAt (Split buf) 3 k ∧
    (3 + 2 * k < length (Split buf))%nat ∧
    Split out = header :: drop (3 + 2 * k) (Split buf).
Proof.
  intros (header & k & Hh & Hstop & Hlt & ->)%chopstack_inv.
  exists header, k. repeat split; try done; try apply Hstop.
  pose proof (Split_no_newline buf) as Hnl.
  apply Split_Join; [done|]. constructor.
  - by eapply (Forall_lookup_1 _ _ _ _ Hnl).
  - by apply Forall_drop.
Qed.

End MoreLines.

(** The bytes of the output, against the bytes of the input. *)
Lemma chopstack_cut (buf out : list byte) :
  chopstack buf = Some out →
  ∃ header rest,
    firstLine buf = Some header ∧
    out = header ++ newline :: rest ∧
    rest `suffix_of` buf ∧
    (length out + 2 ≤ length buf)%nat.
Proof.
  intros (header & k & Hh & _ & Hlt & ->)%chopstack_inv.
  set (i := (3 + 2 * k)%nat) in *.
  assert (3 ≤ i)%nat as Hi by (unfold i; lia).
  assert (drop i (Split buf) ≠ []) as Hdrop.
  { intros Hnil%(f_equal length). rewrite length_drop in Hnil.
    change (length (@nil (list byte))) with 0%nat in Hnil. lia. }
  assert (take i (Split buf) ≠ []) as Htake.
  { intros Hnil%(f_equal length). rewrite length_take in Hnil.
    change (length (@nil (list byte))) with 0%nat in Hnil. lia. }
  assert (buf = Join (take i (Split buf)) [newline] ++ [newline]
                ++ Join (drop i (Split buf)) [newline]) as Hbuf.
  { rewrite <- Join_app by done. by rewrite take_drop, Join_Split. }
  assert (length header + 2 ≤ length (Join (take i (Split buf)) [newline]))%nat as Hlen.
  { destruct (Split buf) as [|h [|l1 [|l2 tl]]]; simpl in Hlt; try lia.
    injection Hh as ->. subst i.
    change (take (3 + 2 * k) (header :: l1 :: l2 :: tl))
      with (header :: l1 :: l2 :: take (2 * k) tl).
    rewrite !Join_cons by done. rewrite !length_app. simpl. lia. }
  exists header, (Join (drop i (Split buf)) [newline]).
  split; [by rewrite <- head_lookup in Hh|]. split; [by rewrite Join_cons|]. split.
  - eexists. rewrite Hbuf at 1. by rewrite app_assoc.
  - rewrite Join_cons by done. rewrite Hbuf at 2.
    rewrite !length_app. simpl. lia.
Qed.

(** X1.  [chopstack] returns exactly on the buffers whose scan stops in
    range: from index 3, every second line is a logrus call site up to one
    that exists and is not.  On every other buffer it panics. *)
Theorem chopstack_returns_iff (buf : list byte) :
  is_Some (chopstack buf) ↔ ∃ k, stopsAt (Split buf) 3 k.
Proof.
  split.
  - intros [out Hout]. by eapply chopstack_Some.
  - intros [k Hk]. destruct (chopstack_stopsAt buf k Hk) as (h & _ & ->). by eexists.
Qed.

(** X2.  A buffer with fewer than three newlines, the empty buffer among
    them, has no line at index 3 and makes [chopstack] panic. *)
Theorem chopstack_few_newlines_panics (buf : list byte) :
  (length (filter (fun b => b = newline) buf) < 3)%nat → chopstack buf = None.
Proof.
  intros Hfew. apply chopstack_out_of_range. rewrite length_Split. lia.
Qed.

Lemma chopstack_few_newlines_panics_witness : chopstack [] = None.
Proof. apply chopstack_few_newlines_panics. simpl. lia. Defined.

(** X3.  In the output of [chopstack] the line after the header exists and
    is not a logrus call site. *)
Theorem chopstack_first_frame_not_internal (buf out : list byte) :
  chopstack buf = Some out →
  ∃ line, Split out !! 1%nat = Some line ∧ internal line = false.
Proof.
  intros (header & k & _ & [_ (l & Hl & Hint)] & _ & ->)%chopstack_lines.
  exists l. split; [|done]. simpl. rewrite lookup_drop.
  rewrite <- Hl. f_equal. lia.
Qed.

Lemma chopstack_first_frame_not_internal_witness :
  ∃ line,
    Split (Join [Sample.header; Sample.dologs; Sample.dologsAt;
                 Sample.main; Sample.mainAt] [newline]) !! 1%nat = Some line ∧
    internal line = false.
Proof.
  apply (chopstack_first_frame_not_internal Sample.trace). by vm_compute.
Defined.

(** X4.  The lines of the output are the first line of the input followed by
    the input's lines from an odd index [3 + 2k] on, unchanged and in order:
    the two lines after the header are always dropped, and lines are only
    ever dropped in pairs. *)
Theorem chopstack_output_lines (buf out : list byte) :
  chopstack buf = Some out →
  ∃ k, Split out = take 1 (Split buf) ++ drop (3 + 2 * k) (Split buf) ∧
       (length (Split out) + 2 + 2 * k = length (Split buf))%nat.
Proof.
  intros (header & k & Hh & _ & Hlt & Hout)%chopstack_lines.
  exists k. rewrite Hout. split.
  - destruct (Split buf) as [|h tl]; [done|]. by injection Hh as ->.
  - simpl. rewrite length_drop. lia.
Qed.

Lemma chopstack_output_lines_witness :
  ∃ k,
    Split (Join [Sample.header; Sample.dologs; Sample.dologsAt;
                 Sample.main; Sample.mainAt] [newline])
    = take 1 (Split Sample.trace) ++ drop (3 + 2 * k) (Split Sample.trace) ∧
    (length (Split (Join [Sample.header; Sample.dologs; Sample.dologsAt;
                          Sample.main; Sample.mainAt] [newline])) + 2 + 2 * k
     = length (Split Sample.trace))%nat.
Proof.
  apply (chopstack_output_lines Sample.trace). by vm_compute.
Defined.

(** X5.  The output of [chopstack] is the header, a newline and a suffix of
    the input, and it is at least two bytes shorter than the input. *)
Theorem chopstack_output_suffix (buf out : list byte) :
  chopstack buf = Some out →
  ∃ header rest,
    firstLine buf = Some header ∧
    out = header ++ newline :: rest ∧
    rest `suffix_of` buf ∧
    (length out + 2 ≤ length buf)%nat.
Proof. apply chopstack_cut. Qed.

Lemma chopstack_output_suffix_witness :
  ∃ header rest,
    firstLine Sample.trace = Some header ∧
    Join [Sample.header; Sample.dologs; Sample.dologsAt;
          Sample.main; Sample.mainAt] [newline] = header ++ newline :: rest ∧
    rest `suffix_of` Sample.trace ∧
    (length (Join [Sample.header; Sample.dologs; Sample.dologsAt;
                   Sample.main; Sample.mainAt] [newline]) + 2
     ≤ length Sample.trace)%nat.
Proof.
  apply (chopstack_output_suffix Sample.trace). by vm_compute.
Defined.

(** X6.  A line counts as a logrus call site exactly when it starts with the
    bytes of "github.com/sirupsen/logrus."; the package path anywhere else in
    the line, as in an indented source location, does not count. *)
Theorem internal_iff_prefix (line : list byte) :
  (internal line = true ↔ ∃ rest, line = logrusPrefix ++ rest) ∧
  (∀ (b : byte) rest, b ≠ x67 → internal (b :: rest) = false).
Proof.
  split; [apply HasPrefix_true|].
  intros b rest Hb. apply not_true_is_false.
  intros [tl Htl]%HasPrefix_true. apply Hb.
  by injection Htl as -> _.
Qed.

Lemma internal_iff_prefix_witness :
  internal (x09 :: logrusPrefix) = false.
Proof.
  apply (internal_iff_prefix []). by vm_compute.
Defined.

(** X7.  Splitting at newlines loses nothing: joining the lines of a buffer
    with newlines gives the buffer back, and lines without newlines come back
    from their joined form. *)
Theorem Split_Join_roundtrip (buf : list byte) (lines : list (list byte)) :
  Join (Split buf) [newline] = buf ∧
  (lines ≠ [] → Forall (fun line => newline ∉ line) lines →
   Split (Join lines [newline]) = lines).
Proof. split; [apply Join_Split | apply Split_Join]. Qed.

Lemma Split_Join_roundtrip_witness :
  Split Sample.cutAfterFire = [Sample.header; Sample.fire; Sample.fireAt].
Proof.
  apply (Split_Join_roundtrip []); [done|].
  refine (bool_decide_unpack _ _). by vm_compute.
Defined.

(** ** Severities *)

(** X8.  Each severity that [levelToSeverity] can return comes from the
    levels it is listed for and from no other, and the severities Debug,
    Notice, Alert and Emergency are never returned: a debug entry is sent
    with the Default severity. *)
Theorem levelToSeverity_preimages (l : logrus.Level) :
  (levelToSeverity l = logging.Critical ↔
     l = logrus.PanicLevel ∨ l = logrus.FatalLevel) ∧
  (levelToSeverity l = logging.Error ↔ l = logrus.ErrorLevel) ∧
  (levelToSeverity l = logging.Warning ↔ l = logrus.WarnLevel) ∧
  (levelToSeverity l = logging.Info ↔ l = logrus.InfoLevel) ∧
  levelToSeverity l ∉
    [logging.Debug; logging.Notice; logging.Alert; logging.Emergency].
Proof.
  assert (∀ s : logging.Severity,
            s ≠ logging.Debug → s ≠ logging.Notice → s ≠ logging.Alert →
            s ≠ logging.Emergency →
            s ∉ [logging.Debug; logging.Notice; logging.Alert; logging.Emergency])
    as Hnot.
  { intros s ? ? ? ?. rewrite !not_elem_of_cons. repeat split; try done.
    apply not_elem_of_nil. }
  unfold levelToSeverity.
  destruct (decide (l = logrus.InfoLevel)) as [->|HI].
  { repeat split; try done; try (by intros [?|?]); by apply Hnot. }
  destruct (decide (l = logrus.WarnLevel)) as [->|HW].
  { repeat split; try done; try (by intros [?|?]); by apply Hnot. }
  destruct (decide (l = logrus.ErrorLevel)) as [->|HE].
  { repeat split; try done; try (by intros [?|?]); by apply Hnot. }
  destruct (decide (l = logrus.PanicLevel ∨ l = logrus.FatalLevel)) as [HC|HC].
  { repeat split; try done; by apply Hnot. }
  repeat split; try done; by apply Hnot.
Qed.

(** X9.  A more severe level never gets a lower severity: along the order of
    the levels, panic first, the severity value does not increase. *)
Theorem levelToSeverity_antitone (l1 l2 : logrus.Level) :
  (l1 ≤ l2)%N →
  severityValue (levelToSeverity l2) ≤ severityValue (levelToSeverity l1).
Proof.
  intros Hle. unfold levelToSeverity, logrus.InfoLevel, logrus.WarnLevel,
    logrus.ErrorLevel, logrus.PanicLevel, logrus.FatalLevel.
  repeat case_decide; simpl; lia.
Qed.

Lemma levelToSeverity_antitone_witness :
  severityValue (levelToSeverity logrus.InfoLevel)
  ≤ severityValue (levelToSeverity logrus.ErrorLevel).
Proof. apply levelToSeverity_antitone. by vm_compute. Defined.

(** ** Fields and labels *)

(** X10.  The labels of an entry have exactly the keys of its fields: no
    field is dropped, none is added, and there are as many labels as fields. *)
Theorem toEntry_labels_dom (h : Log.t) (e : logrus.Entry) :
  dom (logging.Labels (Log.toEntry h e)) = dom (logrus.Data e) ∧
  size (logging.Labels (Log.toEntry h e)) = size (logrus.Data e).
Proof.
  unfold Log.toEntry. simpl. rewrite labels_fmap. split.
  - apply dom_fmap_L.
  - apply map_size_fmap.
Qed.

(** ** Which hook is fired *)

(** X11.  With the default levels the logging hook is fired exactly for warn
    and info entries and the error hook exactly for panic, fatal and error
    entries; no entry fires both. *)
Theorem default_hooks_fire
    (logger : logging.Logger) (client : errorreporting.Client) (e : logrus.Entry) :
  (logrus.fires (Log.Levels (NewLog logger Nil)) e = true ↔
     logrus.EntryLevel e = logrus.WarnLevel ∨
     logrus.EntryLevel e = logrus.InfoLevel) ∧
  (logrus.fires (ErrorReport.Levels (NewErrorReport client Nil)) e = true ↔
     logrus.EntryLevel e = logrus.PanicLevel ∨
     logrus.EntryLevel e = logrus.FatalLevel ∨
     logrus.EntryLevel e = logrus.ErrorLevel) ∧
  ¬ (logrus.fires (Log.Levels (NewLog logger Nil)) e = true ∧
     logrus.fires (ErrorReport.Levels (NewErrorReport client Nil)) e = true).
Proof.
  unfold logrus.fires. simpl. rewrite !bool_decide_eq_true.
  rewrite !elem_of_cons, !elem_of_nil.
  unfold logrus.WarnLevel, logrus.InfoLevel, logrus.PanicLevel,
    logrus.FatalLevel, logrus.ErrorLevel.
  repeat split; try tauto. intros [[->| [->|[]]] [|[|[|[]]]]]; done.
Qed.

(** ** More on firing *)

Section Dispatch.

Implicit Types (w : World) (e : logrus.Entry) (hooks : list Hook.t).

Lemma Log_Fire_returns (h : Log.t) e w :
  Log.Fire h e w =
  Ret None
    {| callStack := callStack w;
       stackCaptures := stackCaptures w;
       logged := logged w ++ [Log.toEntry h e];
       reported := reported w;
       onError := onError w ++
         failures (logging.transmit (Log.logger h) (Log.toEntry h e)) |}.
Proof. reflexivity. Qed.

Lemma ErrorReport_Fire_cases (h : ErrorReport.t) e w :
  ErrorReport.Fire h e w = Panic ∨
  ∃ cs report w',
    chopstack (take (16 * 1024) (callStack w)) = Some cs ∧
    ErrorReport.Fire h e w = Ret None w' ∧
    reported w' = reported w ++ [report] ∧
    errorreporting.Stack report = cs ∧
    callStack w' = callStack w ∧
    logged w' = logged w ∧
    stackCaptures w' = S (stackCaptures w).
Proof.
  destruct (chopstack (take (16 * 1024) (callStack w))) as [cs|] eqn:Hcs.
  - right. exists cs. do 2 eexists. split; [done|].
    split; [by apply ErrorReport_Fire_returns|]. simpl. by repeat split.
  - left. by apply ErrorReport_Fire_panics.
Qed.

(** What firing some hooks in turn leaves behind. *)
Lemma fireEach_trace hooks e w r w' :
  LevelHooks.fireEach hooks e w = Ret r w' →
  r = None ∧
  logged w' = logged w ++ map (fun h => Log.toEntry h e) (logHooks hooks) ∧
  length (reported w') = (length (reported w) + length (errorHooks hooks))%nat ∧
  stackCaptures w' = (stackCaptures w + length (errorHooks hooks))%nat.
Proof.
  revert w. induction hooks as [|h rest IH]; intros w; simpl.
  - intros [= <- <-]. by rewrite app_nil_r, !Nat.add_0_r.
  - destruct h as [h|h]; simpl.
    + unfold mbind, M_bind at 1. rewrite Log_Fire_returns.
      intros (-> & Hlog & Hrep & Hcap)%IH. simpl in *.
      split; [done|]. split; [by rewrite Hlog, <- app_assoc|]. done.
    + unfold mbind, M_bind at 1.
      destruct (ErrorReport_Fire_cases h e w)
        as [->|(cs & report & w1 & _ & -> & Hrep1 & _ & _ & Hlog1 & Hcap1)];
        [done|].
      intros (-> & Hlog & Hrep & Hcap)%IH.
      split; [done|]. split; [by rewrite Hlog, Hlog1|].
      rewrite Hrep, Hcap, Hrep1, Hcap1, length_app. simpl. lia.
Qed.

Lemma filed_insert (hooks : LevelHooks.t) (l level : logrus.Level) (hs : list Hook.t) :
  LevelHooks.filed (<[l := hs]> hooks) level
  = if decide (l = level) then hs else LevelHooks.filed hooks level.
Proof.
  unfold LevelHooks.filed. rewrite lookup_insert. by case_decide.
Qed.

(** Adding a hook files it, after the hooks already there, once for each
    time its levels list the level. *)
Lemma filed_Add (hooks : LevelHooks.t) (hook : Hook.t) (level : logrus.Level) :
  LevelHooks.filed (LevelHooks.Add hooks hook) level
  = LevelHooks.filed hooks level ++
    replicate (length (filter (fun l => l = level) (elems (Hook.Levels hook)))) hook.
Proof.
  unfold LevelHooks.Add. generalize (elems (Hook.Levels hook)) as levels.
  intros levels. revert hooks.
  induction levels as [|l ls IH]; intros hooks; simpl.
  - by rewrite app_nil_r.
  - rewrite IH, filed_insert, filter_cons.
    destruct (decide (l = level)) as [->|Hne]; [|done].
    simpl. by rewrite <- app_assoc.
Qed.

Lemma filed_addAll (added : list Hook.t) (level : logrus.Level) :
  LevelHooks.filed (addAll added) level = due level added.
Proof.
  unfold addAll.
  assert (∀ hooks : LevelHooks.t,
            LevelHooks.filed (foldl LevelHooks.Add hooks added) level
            = LevelHooks.filed hooks level ++ due level added) as Hgen.
  { induction added as [|h rest IH]; intros hooks; simpl.
    - by rewrite app_nil_r.
    - rewrite IH, filed_Add. by rewrite <- app_assoc. }
  by rewrite Hgen.
Qed.

Lemma due_cons (level : logrus.Level) (h : Hook.t) (rest : list Hook.t) :
  due level (h :: rest) = due level [h] ++ due level rest.
Proof. unfold due. simpl. by rewrite app_nil_r. Qed.

Lemma due_not_listed (level : logrus.Level) (h : Hook.t) :
  level ∉ elems (Hook.Levels h) → due level [h] = [].
Proof.
  intros Hnot. unfold due. simpl. rewrite app_nil_r.
  replace (filter (fun l => l = level) (elems (Hook.Levels h))) with (@nil N); [done|].
  symmetry. induction (elems (Hook.Levels h)) as [|l ls IH]; [done|].
  apply not_elem_of_cons in Hnot as [Hne Hnot].
  rewrite filter_cons, decide_False by done. by apply IH.
Qed.

End Dispatch.

(** X12.  [ErrorReport.Fire] panics exactly when [chopstack] panics on the
    first 16 KiB of the captured trace; nothing is reported then. *)
Theorem ErrorReport_Fire_panics_iff
    (h : ErrorReport.t) (e : logrus.Entry) (w : World) :
  ErrorReport.Fire h e w = Panic ↔
  chopstack (take (16 * 1024) (callStack w)) = None.
Proof.
  split; [|apply ErrorReport_Fire_panics].
  destruct (chopstack (take (16 * 1024) (callStack w))) as [cs|] eqn:Hcs; [|done].
  by rewrite (ErrorReport_Fire_returns h e w cs Hcs).
Qed.

(** X13.  The stack of a report is at least two bytes shorter than the
    16 KiB buffer the trace is captured into. *)
Theorem ErrorReport_Fire_stack_bound
    (h : ErrorReport.t) (e : logrus.Entry) (w w' : World) (r : option error) :
  ErrorReport.Fire h e w = Ret r w' →
  ∃ report, reported w' = reported w ++ [report] ∧
            (length (errorreporting.Stack report) + 2 ≤ 16 * 1024)%nat.
Proof.
  intros HFire.
  destruct (ErrorReport_Fire_cases h e w)
    as [HP|(cs & report & w1 & Hcs & HF & Hrep & Hstack & _)];
    [by rewrite HP in HFire|].
  rewrite HF in HFire. injection HFire as <- <-.
  exists report. split; [done|]. rewrite Hstack.
  apply chopstack_cut in Hcs as (_ & _ & _ & _ & _ & Hlen).
  rewrite length_take in Hlen. lia.
Qed.

Lemma ErrorReport_Fire_stack_bound_witness :
  ∃ report,
    reported
      {| callStack := Sample.trace;
         stackCaptures := 1;
         logged := [];
         reported :=
           [{| errorreporting.Error := errors.New "send user err: do bar: do foo";
               errorreporting.Stack :=
                 Join [Sample.header; Sample.dologs; Sample.dologsAt;
                       Sample.main; Sample.mainAt] [newline];
               errorreporting.User := "howard" |}];
         onError := [] |}
    = reported Sample.world ++ [report] ∧
    (length (errorreporting.Stack report) + 2 ≤ 16 * 1024)%nat.
Proof.
  apply (ErrorReport_Fire_stack_bound
           (NewErrorReport Sample.client Nil) Sample.userErr Sample.world _ None).
  by vm_compute.
Defined.

(** X14.  A report depends on the entry through its message and its field
    "user" only: the level, the time and the other fields of the entry are
    not passed on. *)
Theorem ErrorReport_Fire_reads_message_and_user
    (h : ErrorReport.t) (e1 e2 : logrus.Entry) (w : World) :
  logrus.Message e1 = logrus.Message e2 →
  logrus.Data e1 !! "user" = logrus.Data e2 !! "user" →
  ErrorReport.Fire h e1 w = ErrorReport.Fire h e2 w.
Proof.
  intros Hmsg Huser.
  destruct (chopstack (take (16 * 1024) (callStack w))) as [cs|] eqn:Hcs.
  - rewrite !(ErrorReport_Fire_returns _ _ _ cs Hcs). by rewrite Hmsg, Huser.
  - by rewrite !ErrorReport_Fire_panics.
Qed.

Lemma ErrorReport_Fire_reads_message_and_user_witness :
  ErrorReport.Fire (NewErrorReport Sample.client Nil) Sample.userErr Sample.world
  = ErrorReport.Fire (NewErrorReport Sample.client Nil) Sample.userErrAgain Sample.world.
Proof.
  apply ErrorReport_Fire_reads_message_and_user; by vm_compute.
Defined.

(** X15.  With the two hooks the example program adds, each with its default
    levels, a warn or info entry is handled by the logging hook alone, a
    panic, fatal or error entry by the error hook alone, and an entry of any
    other level, a debug entry among them, changes nothing. *)
Theorem exampleHooks_dispatch
    (logger : logging.Logger) (errclient : errorreporting.Client)
    (e : logrus.Entry) (w : World) :
  (logrus.EntryLevel e ∈ [logrus.WarnLevel; logrus.InfoLevel] →
   LevelHooks.Fire (exampleHooks logger errclient) (logrus.EntryLevel e) e w
   = Log.Fire (NewLog logger Nil) e w) ∧
  (logrus.EntryLevel e ∈ [logrus.PanicLevel; logrus.FatalLevel; logrus.ErrorLevel] →
   LevelHooks.Fire (exampleHooks logger errclient) (logrus.EntryLevel e) e w
   = ErrorReport.Fire (NewErrorReport errclient Nil) e w) ∧
  (logrus.EntryLevel e ∉ [logrus.WarnLevel; logrus.InfoLevel; logrus.PanicLevel;
                          logrus.FatalLevel; logrus.ErrorLevel] →
   LevelHooks.Fire (exampleHooks logger errclient) (logrus.EntryLevel e) e w
   = Ret None w).
Proof.
  unfold LevelHooks.Fire.
  change (exampleHooks logger errclient)
    with (addAll [Hook.OfLog (NewLog logger Nil);
                  Hook.OfErrorReport (NewErrorReport errclient Nil)]).
  rewrite filed_addAll.
  rewrite due_cons.
  repeat split.
  - intros Hl. rewrite (due_not_listed _ (Hook.OfErrorReport _)).
    + rewrite !elem_of_cons, elem_of_nil in Hl.
      destruct Hl as [->|[->|[]]]; reflexivity.
    + simpl. rewrite !elem_of_cons, !elem_of_nil in *.
      unfold logrus.WarnLevel, logrus.InfoLevel, logrus.PanicLevel,
        logrus.FatalLevel, logrus.ErrorLevel in *.
      intros [?|[?|[?|[]]]]; destruct Hl as [?|[?|[]]]; congruence.
  - intros Hl. rewrite (due_not_listed _ (Hook.OfLog _)).
    + assert (due (logrus.EntryLevel e)
                  [Hook.OfErrorReport (NewErrorReport errclient Nil)]
              = [Hook.OfErrorReport (NewErrorReport errclient Nil)]) as ->.
      { rewrite !elem_of_cons, elem_of_nil in Hl.
        destruct Hl as [->|[->|[->|[]]]]; reflexivity. }
      simpl. unfold mbind, M_bind.
      by destruct (ErrorReport.Fire (NewErrorReport errclient Nil) e w) as [[err|] w'|].
    + simpl. rewrite !elem_of_cons, !elem_of_nil in *.
      unfold logrus.WarnLevel, logrus.InfoLevel, logrus.PanicLevel,
        logrus.FatalLevel, logrus.ErrorLevel in *.
      intros [?|[?|[]]]; destruct Hl as [?|[?|[?|[]]]]; congruence.
  - intros Hl. rewrite !due_not_listed; [done| |].
    + simpl. intros Hl'. apply Hl. rewrite !elem_of_cons in *. tauto.
    + simpl. intros Hl'. apply Hl. rewrite !elem_of_cons in *. tauto.
Qed.

Lemma exampleHooks_dispatch_witness :
  LevelHooks.Fire (exampleHooks Sample.logger Sample.client)
                  logrus.DebugLevel Sample.debugging Sample.world
  = Ret None Sample.world.
Proof.
  apply (exampleHooks_dispatch Sample.logger Sample.client Sample.debugging).
  refine (bool_decide_unpack _ _). by vm_compute.
Defined.

(** X16.  When hooks have been added to a logger in turn, firing the hooks
    filed under the level of an entry never yields an error; each hook is
    fired in the order of adding, once for each time its levels list the
    level: a logging hook hands over its entry each time, an error hook
    captures the stack and hands over a report each time. *)
Theorem LevelHooks_Fire_each_due
    (added : list Hook.t) (e : logrus.Entry) (w w' : World) (r : option error) :
  LevelHooks.Fire (addAll added) (logrus.EntryLevel e) e w = Ret r w' →
  r = None ∧
  logged w' = logged w ++
    map (fun h => Log.toEntry h e) (logHooks (due (logrus.EntryLevel e) added)) ∧
  length (reported w') =
    (length (reported w) + length (errorHooks (due (logrus.EntryLevel e) added)))%nat ∧
  stackCaptures w' =
    (stackCaptures w + length (errorHooks (due (logrus.EntryLevel e) added)))%nat.
Proof.
  unfold LevelHooks.Fire. rewrite filed_addAll. apply fireEach_trace.
Qed.

Lemma LevelHooks_Fire_each_due_witness :
  logged
    {| callStack := Sample.trace;
       stackCaptures := 0;
       logged :=
         [Log.toEntry (NewLog Sample.logger
                         (Slice [logrus.WarnLevel; logrus.WarnLevel])) Sample.warning;
          Log.toEntry (NewLog Sample.logger
                         (Slice [logrus.WarnLevel; logrus.WarnLevel])) Sample.warning];
       reported := [];
       onError := [] |}
  = logged Sample.world ++
    map (fun h => Log.toEntry h Sample.warning)
        (logHooks (due (logrus.EntryLevel Sample.warning)
           [Hook.OfLog (NewLog Sample.logger
                          (Slice [logrus.WarnLevel; logrus.WarnLevel]));
            Hook.OfErrorReport (NewErrorReport Sample.client Nil)])).
Proof.
  apply (LevelHooks_Fire_each_due
           [Hook.OfLog (NewLog Sample.logger
                          (Slice [logrus.WarnLevel; logrus.WarnLevel]));
            Hook.OfErrorReport (NewErrorReport Sample.client Nil)]
           Sample.warning Sample.world _ None).
  by vm_compute.
Defined.

(** ** Complete captures *)

Section Complete.

Implicit Types (buf line : list byte) (lines : list (list byte)).

Lemma Split_snoc_newline buf : Split (buf ++ [newline]) = Split buf ++ [[]].
Proof.
  induction buf as [|b rest IH]; [done|].
  simpl. rewrite IH. pose proof (Split_nonempty rest).
  case_decide; [done|]. by destruct (Split rest).
Qed.

(** The scan stops when some line ahead of it, at an even distance, is not
    a logrus call site. *)
Lemma scan_reaches lines i m line :
  lines !! (i + 2 * m)%nat = Some line → internal line = false →
  is_Some (scan lines i).
Proof.
  revert i. induction m as [|m IH]; intros i Hline Hint; rewrite scan_step.
  - replace (i + 2 * 0)%nat with i in Hline by lia. rewrite Hline, Hint. by eexists.
  - destruct (lines !! i) as [l|] eqn:Hl.
    + destruct (internal l); [|by eexists].
      apply IH; [|done]. rewrite <- Hline. f_equal. lia.
    + apply lookup_ge_None in Hl. apply lookup_lt_Some in Hline. lia.
Qed.

Lemma chopstack_complete buf n :
  last buf = Some newline →
  length (filter (fun b => b = newline) buf) = (2 * n + 1)%nat →
  (1 ≤ n)%nat →
  is_Some (chopstack buf).
Proof.
  intros [body ->]%last_Some Hcount Hn.
  assert (is_Some (scan (Split (body ++ [newline])) 3)) as [i Hi].
  { apply (scan_reaches _ 3 (n - 1) []); [|done].
    pose proof (length_Split (body ++ [newline])) as Hlen.
    rewrite Hcount, Split_snoc_newline, length_app in Hlen. simpl in Hlen.
    rewrite Split_snoc_newline, lookup_app_r by lia.
    by replace (3 + 2 * (n - 1) - length (Split body))%nat with 0%nat by lia. }
  destruct (Split_lookup_0 (body ++ [newline])) as [header Hh].
  unfold chopstack. rewrite Hi, Hh. by eexists.
Qed.

End Complete.

(** X17.  On a complete capture, a header and [n >= 1] frames of two lines
    each, every line ended by a newline, [chopstack] returns: at the latest
    the scan stops at the empty line after the last newline. *)
Theorem chopstack_complete_capture_returns (buf : list byte) (n : nat) :
  last buf = Some newline →
  length (filter (fun b => b = newline) buf) = (2 * n + 1)%nat →
  (1 ≤ n)%nat →
  is_Some (chopstack buf).
Proof. apply chopstack_complete. Qed.

Lemma chopstack_complete_capture_returns_witness :
  is_Some (chopstack (Sample.trace ++ [newline])).
Proof.
  apply (chopstack_complete_capture_returns _ 5); [by vm_compute | by vm_compute | lia].
Defined.

(** X18.  [ErrorReport.Fire] returns, and hands over one report, whenever
    the captured trace is complete and fits the 16 KiB buffer. *)
Theorem ErrorReport_Fire_complete_capture
    (h : ErrorReport.t) (e : logrus.Entry) (w : World) (n : nat) :
  (length (callStack w) ≤ 16 * 1024)%nat →
  last (callStack w) = Some newline →
  length (filter (fun b => b = newline) (callStack w)) = (2 * n + 1)%nat →
  (1 ≤ n)%nat →
  ∃ report w',
    ErrorReport.Fire h e w = Ret None w' ∧
    reported w' = reported w ++ [report].
Proof.
  intros Hfit Hlast Hcount Hn.
  destruct (chopstack_complete (callStack w) n Hlast Hcount Hn) as [cs Hcs].
  rewrite <- (take_ge (callStack w) (16 * 1024)) in Hcs by done.
  do 2 eexists. split; [by apply ErrorReport_Fire_returns|]. done.
Qed.

Lemma ErrorReport_Fire_complete_capture_witness :
  ∃ report w',
    ErrorReport.Fire (NewErrorReport Sample.client Nil) Sample.userErr
      {| callStack := Sample.trace ++ [newline]; stackCaptures := 0;
         logged := []; reported := []; onError := [] |}
    = Ret None w' ∧
    reported w' = [] ++ [report].
Proof.
  apply (ErrorReport_Fire_complete_capture
           (NewErrorReport Sample.client Nil) Sample.userErr
           {| callStack := Sample.trace ++ [newline]; stackCaptures := 0;
              logged := []; reported := []; onError := [] |} 5);
    simpl callStack.
  - apply Nat.leb_le. by vm_compute.
  - by vm_compute.
  - by vm_compute.
  - lia.
Defined.
